(** * impeller/aiks/image.h : the [impeller::Image] class

    The header declares one class,

<<
    namespace impeller {
    class Image {
     public:
      Image();
      ~Image();
     private:
      FML_DISALLOW_COPY_AND_ASSIGN(Image);
    };
    }
>>

    The development has three layers:
    - [Cxx]: the fragment of the C++ rules that gives a class declaration
      its meaning (member access, implicitly declared special member
      functions, overload resolution of a copy or a move);
    - [fml]: the macro the class uses;
    - [impeller]: the class as the header writes it, the type of its
      values, the program state its objects live in and its two
      operations.
    The properties of the class follow. *)

From stdpp Require Import gmap strings list.

Open Scope string_scope.

(* ===================================================================== *)
(** ** Class declarations and the rules that complete them *)
(* ===================================================================== *)

Module Cxx.

Inductive access := Public | Protected | Private.

Inductive class_key := KClass | KStruct.

Inductive ref_kind := LRef | RRef.

(** Types as they occur in the parameter lists of special member
    functions: a named type by value, or a (const) reference to one. *)
Inductive type :=
  | TNamed (name : string)
  | TReference (k : ref_kind) (is_const : bool) (name : string).

(** How a member function is given: declared only ([f();], the definition
    is out of line), [= default] or [= delete]. *)
Inductive fn_body := DeclaredOnly | Defaulted | Deleted.

Inductive member_decl :=
  | Constructor (params : list type) (b : fn_body)
  | Destructor (b : fn_body)
  | AssignOperator (param : type) (b : fn_body)
  | MemberFunction (name : string) (params : list type) (b : fn_body)
  | DataMember (is_static : bool) (ty : type) (name : string).

(** A class body is a sequence of access labels and member declarations. *)
Inductive member_spec :=
  | AccessSpecifier (a : access)
  | Member (d : member_decl).

Record class_specifier := {
  key : class_key;
  class_name : string;
  bases : list string;
  body : list member_spec
}.

Record namespace_def := {
  ns_name : string;
  ns_classes : list class_specifier
}.

Record header := {
  includes : list string;
  namespaces : list namespace_def
}.

#[global] Instance access_eq_dec : EqDecision access.
Proof. solve_decision. Defined.
#[global] Instance ref_kind_eq_dec : EqDecision ref_kind.
Proof. solve_decision. Defined.
#[global] Instance type_eq_dec : EqDecision type.
Proof. solve_decision. Defined.
#[global] Instance fn_body_eq_dec : EqDecision fn_body.
Proof. solve_decision. Defined.
#[global] Instance member_decl_eq_dec : EqDecision member_decl.
Proof. solve_decision. Defined.

(** *** Member access, [class.access] *)

Definition default_access (k : class_key) : access :=
  match k with KClass => Private | KStruct => Public end.

(** Each member gets the access of the last label before it. *)
Fixpoint label (cur : access) (items : list member_spec)
  : list (access * member_decl) :=
  match items with
  | [] => []
  | AccessSpecifier a :: rest => label a rest
  | Member d :: rest => (cur, d) :: label cur rest
  end.

Definition members (c : class_specifier) : list (access * member_decl) :=
  label (default_access (key c)) (body c).

(** Where a use of a member is written. *)
Inductive context := InMemberOrFriend | InDerivedClass | Outside.

Definition accessible (a : access) (ctx : context) : bool :=
  match a, ctx with
  | Public, _ => true
  | Protected, Outside => false
  | Protected, _ => true
  | Private, InMemberOrFriend => true
  | Private, _ => false
  end.

(** *** Special member functions, [special] *)

Definition refers_to (C : string) (k : ref_kind) (t : type) : bool :=
  match t with
  | TReference k' _ n => bool_decide (k' = k) && String.eqb n C
  | TNamed _ => false
  end.

Definition is_constructor (d : member_decl) : bool :=
  match d with Constructor _ _ => true | _ => false end.

Definition is_default_ctor (d : member_decl) : bool :=
  match d with Constructor [] _ => true | _ => false end.

Definition is_copy_ctor (C : string) (d : member_decl) : bool :=
  match d with Constructor [t] _ => refers_to C LRef t | _ => false end.

Definition is_move_ctor (C : string) (d : member_decl) : bool :=
  match d with Constructor [t] _ => refers_to C RRef t | _ => false end.

(** [C& operator=(C)] is a copy assignment operator too,
    [class.copy.assign]/1. *)
Definition is_copy_assign (C : string) (d : member_decl) : bool :=
  match d with
  | AssignOperator (TNamed n) _ => String.eqb n C
  | AssignOperator t _ => refers_to C LRef t
  | _ => false
  end.

Definition is_move_assign (C : string) (d : member_decl) : bool :=
  match d with AssignOperator t _ => refers_to C RRef t | _ => false end.

Definition is_destructor (d : member_decl) : bool :=
  match d with Destructor _ => true | _ => false end.

Definition is_data_member (d : member_decl) : bool :=
  match d with DataMember _ _ _ => true | _ => false end.

Definition is_deleted (d : member_decl) : bool :=
  match d with
  | Constructor _ Deleted | Destructor Deleted
  | AssignOperator _ Deleted | MemberFunction _ _ Deleted => true
  | _ => false
  end.

Definition user_declares (P : member_decl -> bool) (c : class_specifier) : bool :=
  existsb (fun m => P (snd m)) (members c).

Section Implicit.
Variable c : class_specifier.
Let C := class_name c.

Let copy_ctor := user_declares (is_copy_ctor C) c.
Let move_ctor := user_declares (is_move_ctor C) c.
Let copy_assign := user_declares (is_copy_assign C) c.
Let move_assign := user_declares (is_move_assign C) c.
Let dtor := user_declares is_destructor c.

(** [class.default.ctor]/1: only when no constructor is user-declared. *)
Definition implicit_default_ctor : list member_decl :=
  if user_declares is_constructor c then [] else [Constructor [] Defaulted].

(** [class.copy.ctor]/6: declared when none is user-declared; deleted
    when the class declares a move operation. *)
Definition implicit_copy_ctor : list member_decl :=
  if copy_ctor then []
  else [Constructor [TReference LRef true C]
          (if move_ctor || move_assign then Deleted else Defaulted)].

(** [class.copy.ctor]/8: declared only when the class has no
    user-declared copy constructor, copy assignment operator, move
    assignment operator or destructor. *)
Definition implicit_move_ctor : list member_decl :=
  if move_ctor || copy_ctor || copy_assign || move_assign || dtor then []
  else [Constructor [TReference RRef false C] Defaulted].

(** [class.copy.assign]/2. *)
Definition implicit_copy_assign : list member_decl :=
  if copy_assign then []
  else [AssignOperator (TReference LRef true C)
          (if move_ctor || move_assign then Deleted else Defaulted)].

(** [class.copy.assign]/4. *)
Definition implicit_move_assign : list member_decl :=
  if move_assign || copy_ctor || move_ctor || copy_assign || dtor then []
  else [AssignOperator (TReference RRef false C) Defaulted].

(** [class.dtor]/4. *)
Definition implicit_dtor : list member_decl :=
  if dtor then [] else [Destructor Defaulted].

Definition implicit_members : list member_decl :=
  implicit_default_ctor ++ implicit_copy_ctor ++ implicit_move_ctor
    ++ implicit_copy_assign ++ implicit_move_assign ++ implicit_dtor.

(** Implicitly declared members are public. *)
Definition all_members : list (access * member_decl) :=
  members c ++ map (fun d => (Public, d)) implicit_members.
End Implicit.

(** *** Overload resolution of a one-argument call, [over.match] *)

(** The argument is an existing object of the class: named ([Lvalue]) or
    cast to an rvalue as by [std::move] ([Xvalue]). *)
Inductive value_category := Lvalue | Xvalue.

Record argument := { arg_cat : value_category; arg_const : bool }.

#[global] Instance value_category_eq_dec : EqDecision value_category.
Proof. solve_decision. Defined.

(** Reference binding, [dcl.init.ref]/5: [T&] takes a non-const lvalue,
    [const T&] anything, [T&&] a non-const rvalue, [const T&&] an rvalue. *)
Definition binds (C : string) (t : type) (a : argument) : bool :=
  match t with
  | TReference LRef is_const n =>
      String.eqb n C &&
      (is_const || (negb (arg_const a) && bool_decide (arg_cat a = Lvalue)))
  | TReference RRef is_const n =>
      String.eqb n C && bool_decide (arg_cat a = Xvalue) &&
      (is_const || negb (arg_const a))
  | TNamed _ => false
  end.

(** Ranking, [over.ics.rank]/3: an rvalue reference bound to an rvalue
    beats an lvalue reference, then the less qualified reference wins.
    Smaller is better. *)
Definition cost (t : type) (a : argument) : nat :=
  match t with
  | TReference k is_const _ =>
      (match k with RRef => 0 | LRef => 2 end)
      + (if is_const && negb (arg_const a) then 1 else 0)
  | TNamed _ => 0
  end.

Inductive diagnostic :=
  | NoViableFunction
  | AmbiguousCall
  | UseOfDeletedFunction
  | InaccessibleMember.

Inductive outcome :=
  | WellFormed (selected : member_decl)
  | IllFormed (d : diagnostic).

Definition candidate := (nat * (access * member_decl))%type.

Definition best (cs : list candidate) : list candidate :=
  filter (fun x => forallb (fun y => Nat.leb (fst x) (fst y)) cs = true) cs.

(** The best viable function is selected first; that it is deleted or
    inaccessible is diagnosed on the selected function, [over.match]/3
    and [dcl.fct.def.delete]/2. *)
Definition resolve (ctx : context) (cs : list candidate) : outcome :=
  match best cs with
  | [] => IllFormed NoViableFunction
  | [(_, (acc, d))] =>
      if is_deleted d then IllFormed UseOfDeletedFunction
      else if accessible acc ctx then WellFormed d
      else IllFormed InaccessibleMember
  | _ => IllFormed AmbiguousCall
  end.

Definition ctor_candidate (C : string) (a : argument)
    (m : access * member_decl) : list candidate :=
  match snd m with
  | Constructor [t] _ => if binds C t a then [(cost t a, m)] else []
  | _ => []
  end.

(** [C y(x);] or [C y = x;] for an existing object [x] of class [C]. *)
Definition construct_from (c : class_specifier) (ctx : context)
    (a : argument) : outcome :=
  resolve ctx (all_members c ≫= ctor_candidate (class_name c) a).

Definition is_well_formed (o : outcome) : bool :=
  match o with WellFormed _ => true | IllFormed _ => false end.

(** A by-value parameter of the class type is initialised from the
    argument by a constructor call of its own. *)
Definition assign_candidate (c : class_specifier) (ctx : context)
    (a : argument) (m : access * member_decl) : list candidate :=
  match snd m with
  | AssignOperator (TNamed n) _ =>
      if String.eqb n (class_name c) && is_well_formed (construct_from c ctx a)
      then [(0, m)] else []
  | AssignOperator t _ =>
      if binds (class_name c) t a then [(cost t a, m)] else []
  | _ => []
  end.

(** [y = x;] for existing objects [x] and [y] of class [C]. *)
Definition assign_from (c : class_specifier) (ctx : context)
    (a : argument) : outcome :=
  resolve ctx (all_members c ≫= assign_candidate c ctx a).

(** The type names a header introduces, qualified by namespace. *)
Definition declared_types (h : header) : list string :=
  namespaces h ≫= fun ns =>
    map (fun c => ns_name ns ++ "::" ++ class_name c) (ns_classes ns).

End Cxx.

(* ===================================================================== *)
(** ** flutter/fml/macros.h *)
(* ===================================================================== *)

Module fml.
Import Cxx.

(** Modelled from the spec: the header flutter/fml/macros.h, which
    defines this macro, is not part of the sources at hand.  The spec
    calls it "a copy/assignment-disable marker" and "a language-specific
    idiom for disabling implicit copy semantics": the macro declares the
    copy constructor and the copy assignment operator of [TypeName] as
    deleted. *)
Definition FML_DISALLOW_COPY_AND_ASSIGN (TypeName : string) : list member_decl :=
  [ Constructor [TReference LRef true TypeName] Deleted;
    AssignOperator (TReference LRef true TypeName) Deleted ].

End fml.

(* ===================================================================== *)
(** ** impeller/aiks/image.h *)
(* ===================================================================== *)

Module impeller.
Import Cxx.

(** The class as written, for a given meaning of the macro in its last
    line. *)
Definition Image_declared (macro : string -> list member_decl) : class_specifier := {|
  key := KClass;
  class_name := "Image";
  bases := [];
  body :=
    [ AccessSpecifier Public;
      Member (Constructor [] DeclaredOnly);
      Member (Destructor DeclaredOnly);
      AccessSpecifier Private ]
    ++ map Member (macro "Image")
|}.

Definition Image_class : class_specifier :=
  Image_declared fml.FML_DISALLOW_COPY_AND_ASSIGN.

Definition image_h : header := {|
  includes := ["flutter/fml/macros.h"];
  namespaces := [ {| ns_name := "impeller"; ns_classes := [Image_class] |} ]
|}.

(** The class has no base class and no data member: a value of the class
    carries nothing. *)
Record Image : Set := mkImage {}.

(** *** Objects, program state and effects *)

(** What lives at an address: an [Image], or a scalar of the rest of the
    program. *)
Inductive object :=
  | ImageObject (i : Image)
  | Scalar (z : Z).

(** The program state: the live objects by address, and what has been
    written to the outside world so far. *)
Record state := {
  heap : gmap N object;
  output : list Z
}.

(** A call returns, leaves by an exception, or has undefined behaviour. *)
Inductive result (A : Type) :=
  | Returned (a : A) (σ : state)
  | Thrown (σ : state)
  | Undefined.
Arguments Returned {A} a σ.
Arguments Thrown {A} σ.
Arguments Undefined {A}.

Definition M (A : Type) : Type := state -> result A.

Definition ret {A} (a : A) : M A := fun σ => Returned a σ.

Definition bind {A B} (c : M A) (k : A -> M B) : M B :=
  fun σ =>
    match c σ with
    | Returned a σ' => k a σ'
    | Thrown σ' => Thrown σ'
    | Undefined => Undefined
    end.

Notation "x <- c ;; k" := (bind c (fun x => k))
  (at level 100, c at next level, right associativity).
Notation "c ;; k" := (bind c (fun _ => k))
  (at level 100, right associativity).

Definition set_heap (f : gmap N object -> gmap N object) (σ : state) : state :=
  {| heap := f (heap σ); output := output σ |}.

(** [basic.life]: the object at [this] starts to exist, stops existing. *)
Definition begin_lifetime (this : N) (o : object) : M unit :=
  fun σ => Returned tt (set_heap <[this := o]> σ).

Definition end_lifetime (this : N) : M unit :=
  fun σ => Returned tt (set_heap (delete this) σ).

(** Calling a member of an object that is not there is undefined. *)
Definition the_Image (this : N) : M Image :=
  fun σ =>
    match heap σ !! this with
    | Some (ImageObject i) => Returned i σ
    | _ => Undefined
    end.

(** An object of the class is created in the storage at [this] by
    running the constructor, after which the object lives (there is no
    base or member to initialise first); it is destroyed by running the
    destructor, after which it is gone. *)
Definition construct_with (ctor : N -> M unit) (this : N) : M unit :=
  ctor this ;; begin_lifetime this (ImageObject mkImage).

Definition destroy_with (dtor : N -> M unit) (this : N) : M unit :=
  _ <- the_Image this ;; dtor this ;; end_lifetime this.

(** Modelled from the spec: the definition of the constructor
    [Image::Image()], which image.h declares and a source file that is
    not at hand defines.  The spec gives "object construction/destruction
    with default (no-op) semantics" and "no function performs observable
    work". *)
Definition Image_ctor (this : N) : M unit := ret tt.

(** Modelled from the spec: the definition of the destructor
    [Image::~Image()], declared in image.h and defined out of line like
    the constructor, with the same "default (no-op) semantics". *)
Definition Image_dtor (this : N) : M unit := ret tt.

Definition construct : N -> M unit := construct_with Image_ctor.
Definition destroy : N -> M unit := destroy_with Image_dtor.

(** The two operations a user of the class can ask for. *)
Inductive operation := Construct | Destroy.

Definition run (op : operation) (this : N) : M unit :=
  match op with
  | Construct => construct this
  | Destroy => destroy this
  end.

End impeller.

(* ===================================================================== *)
(** ** Properties *)
(* ===================================================================== *)

Import Cxx impeller.

(** *** Vocabulary of the statements *)

Definition returns {A} (r : result A) : bool :=
  match r with Returned _ _ => true | _ => false end.

Definition throws {A} (r : result A) : bool :=
  match r with Thrown _ => true | _ => false end.

Definition final {A} (r : result A) : option state :=
  match r with Returned _ σ => Some σ | Thrown σ => Some σ | Undefined => None end.

(** An [Image] lives at [this]. *)
Definition alive (this : N) (σ : state) : bool :=
  match heap σ !! this with Some (ImageObject _) => true | _ => false end.

(** A member a user of the class can call: public and not deleted. *)
Definition callable (m : access * member_decl) : bool :=
  accessible (fst m) Outside && negb (is_deleted (snd m))
  && negb (is_data_member (snd m)).

Ltac run_M :=
  unfold run, construct, destroy, construct_with, destroy_with,
    Image_ctor, Image_dtor, begin_lifetime, end_lifetime, the_Image,
    bind, ret, alive in *; simpl in *.

(** A state with something in it, and small classes on which the rules
    can be seen at work. *)
Definition busy : state :=
  {| heap := {[ 4%N := Scalar 5 ]}; output := [1%Z] |}.

(** A class that declares nothing gets all six special members and can be
    copied and moved; one that only declares a destructor keeps its copy
    operations, loses the move operations, and a move falls back to the
    copy constructor. *)
Definition plain : class_specifier :=
  {| key := KStruct; class_name := "S"; bases := []; body := [] |}.

Definition with_dtor : class_specifier :=
  {| key := KStruct; class_name := "S"; bases := [];
     body := [Member (Destructor DeclaredOnly)] |}.

(** A class that declares its move operations and nothing else, and one
    that hides its copy operations without deleting them. *)
Definition move_only : class_specifier :=
  {| key := KClass; class_name := "S"; bases := [];
     body := [ AccessSpecifier Public;
               Member (Constructor [TReference RRef false "S"] Defaulted);
               Member (AssignOperator (TReference RRef false "S") Defaulted) ] |}.

Definition hidden_copy : class_specifier :=
  {| key := KClass; class_name := "S"; bases := [];
     body := [ Member (Constructor [TReference LRef true "S"] DeclaredOnly);
               Member (AssignOperator (TReference LRef true "S") DeclaredOnly) ] |}.

(** *** The class for any expansion of the macro *)

(** The class with the last line of its body replaced by what the macro
    expands to: a sequence of access labels and member declarations, the
    declarations being those of [member_decl] (constructors, destructors,
    assignment operators, member functions and data members, none of
    them a template, none with a default argument). *)
Definition Image_expanded (expansion : list member_spec) : class_specifier := {|
  key := KClass;
  class_name := "Image";
  bases := [];
  body :=
    [ AccessSpecifier Public;
      Member (Constructor [] DeclaredOnly);
      Member (Destructor DeclaredOnly);
      AccessSpecifier Private ]
    ++ expansion
|}.

Definition is_unary_ctor (d : member_decl) : bool :=
  match d with Constructor [_] _ => true | _ => false end.

Definition is_assign_operator (d : member_decl) : bool :=
  match d with AssignOperator _ _ => true | _ => false end.

(** The declarations of the expansion that [P] selects all end up
    private in the class. *)
Definition keeps_private (P : member_decl -> bool)
    (expansion : list member_spec) : bool :=
  forallb (fun m => negb (P (snd m)) || bool_decide (fst m = Private))
          (label Private expansion).

(** Three expansions: the copy operations declared and never defined,
    after a public member function; the copy operations made public; the
    copy constructor alone. *)
Definition declared_not_defined : list member_spec :=
  [ AccessSpecifier Public;
    Member (MemberFunction "Touch" [] DeclaredOnly);
    AccessSpecifier Private;
    Member (Constructor [TReference LRef true "Image"] DeclaredOnly);
    Member (AssignOperator (TReference LRef true "Image") DeclaredOnly) ].

Definition made_public : list member_spec :=
  [ AccessSpecifier Public;
    Member (Constructor [TReference LRef true "Image"] DeclaredOnly);
    Member (AssignOperator (TReference LRef true "Image") DeclaredOnly) ].

Definition copy_ctor_only : list member_spec :=
  [ Member (Constructor [TReference LRef true "Image"] Deleted) ].

(** *** Inclusion of the header *)

(** A file as the preprocessor sees it: whether it starts with
    [#pragma once], and what it holds, its includes and then its class
    definitions as image.h has them (no macro definition, no conditional
    section). *)
Record source_file := {
  pragma_once : bool;
  text : header
}.

(** The files, each with an identity of its own, and the file that a
    path spelled in an [#include] denotes, which may depend on the file
    that includes ([None] for the main file); several spellings may
    denote one file. *)
Record file_system := {
  named : option N -> string -> option N;
  stored : gmap N source_file
}.

Definition image_h_file : source_file :=
  {| pragma_once := true; text := image_h |}.

(** Including a list of paths in order; [seen] is the set of
    [#pragma once] files met so far, the result is the sequence of file
    texts that make up the translation unit. *)
Fixpoint include_all
    (inc : gset N -> string -> option (gset N * list header))
    (seen : gset N) (paths : list string)
  : option (gset N * list header) :=
  match paths with
  | [] => Some (seen, [])
  | p :: rest =>
      match inc seen p with
      | None => None
      | Some (seen1, out1) =>
          match include_all inc seen1 rest with
          | None => None
          | Some (seen2, out2) => Some (seen2, (out1 ++ out2)%list)
          end
      end
  end.

(** One [#include]: it fails on a path that denotes no file and beyond
    the nesting limit; a [#pragma once] file met before, under whatever
    spelling, contributes nothing; otherwise the file's own includes are
    expanded (in image.h they come first), then its text follows. *)
Fixpoint include_file (depth : nat) (fs : file_system) (from : option N)
    (seen : gset N) (path : string)
  : option (gset N * list header) :=
  match depth with
  | O => None
  | S d =>
      match named fs from path with
      | None => None
      | Some id =>
          match stored fs !! id with
          | None => None
          | Some f =>
              if pragma_once f && bool_decide (id ∈ seen) then Some (seen, [])
              else
                match include_all (include_file d fs (Some id))
                        (if pragma_once f then {[id]} ∪ seen else seen)
                        (includes (text f)) with
                | None => None
                | Some (seen', out) => Some (seen', (out ++ [text f])%list)
                end
          end
      end
  end.

Definition preprocess (depth : nat) (fs : file_system)
    (directives : list string) : option (list header) :=
  match include_all (include_file depth fs None) ∅ directives with
  | None => None
  | Some (_, out) => Some out
  end.

(** How many definitions of the type named [T] a sequence of file texts
    holds. *)
Definition definitions_of (T : string) (tu : list header) : nat :=
  length (filter (fun n => n = T) (tu ≫= declared_types)).

Definition met (id : N) (seen : gset N) : nat :=
  if decide (id ∈ seen) then 1 else 0.

(** What an inclusion keeps: the set of files met only grows, and a
    definition of [T] goes out exactly when the file [id] enters the
    set. *)
Definition accounted (T : string) (id : N) (seen seen' : gset N)
    (out : list header) : Prop :=
  seen ⊆ seen' /\ definitions_of T out + met id seen = met id seen'.

(** No file but [id] defines [T]. *)
Definition only_in (T : string) (id : N) (fs : file_system) : Prop :=
  map_Forall (fun id' f => id' = id \/ definitions_of T [text f] = 0) (stored fs).

(** Some directive of the main file denotes the file [id]. *)
Definition names (fs : file_system) (id : N) (directives : list string) : bool :=
  existsb (fun p => bool_decide (named fs None p = Some id)) directives.

(** A small file system: image.h under two spellings, the macro header,
    and a header without [#pragma once] that includes image.h; and the
    same with a copy of image.h added as a file of its own. *)
Definition no_text : header := {| includes := []; namespaces := [] |}.

Definition unguarded : source_file :=
  {| pragma_once := false;
     text := {| includes := ["./impeller/aiks/image.h"]; namespaces := [] |} |}.

Definition spellings : gmap string N :=
  {[ "impeller/aiks/image.h" := 1%N;
     "./impeller/aiks/image.h" := 1%N;
     "flutter/fml/macros.h" := 2%N;
     "unguarded.h" := 3%N ]}.

Definition tree : file_system := {|
  named := fun _ path => spellings !! path;
  stored := {[ 1%N := image_h_file;
               2%N := {| pragma_once := true; text := no_text |};
               3%N := unguarded ]}
|}.

Definition tree_with_copy : file_system := {|
  named := fun _ path => <[ "copy/image.h" := 4%N ]> spellings !! path;
  stored := <[ 4%N := image_h_file ]> (stored tree)
|}.

(** *** The rules on other classes *)

Example plain_is_movable :
  construct_from plain Outside {| arg_cat := Xvalue; arg_const := false |}
  = WellFormed (Constructor [TReference RRef false "S"] Defaulted).
Proof. reflexivity. Qed.

Example plain_is_copyable :
  construct_from plain Outside {| arg_cat := Lvalue; arg_const := false |}
  = WellFormed (Constructor [TReference LRef true "S"] Defaulted).
Proof. reflexivity. Qed.

Example with_dtor_move_is_a_copy :
  implicit_move_ctor with_dtor = [] /\
  construct_from with_dtor Outside {| arg_cat := Xvalue; arg_const := false |}
  = WellFormed (Constructor [TReference LRef true "S"] Defaulted).
Proof. split; reflexivity. Qed.

Example move_only_moves_and_does_not_copy :
  construct_from move_only Outside {| arg_cat := Xvalue; arg_const := false |}
  = WellFormed (Constructor [TReference RRef false "S"] Defaulted) /\
  assign_from move_only Outside {| arg_cat := Xvalue; arg_const := false |}
  = WellFormed (AssignOperator (TReference RRef false "S") Defaulted) /\
  construct_from move_only Outside {| arg_cat := Lvalue; arg_const := false |}
  = IllFormed UseOfDeletedFunction.
Proof. repeat split. Qed.

Example hidden_copy_is_a_matter_of_access :
  construct_from hidden_copy Outside {| arg_cat := Lvalue; arg_const := true |}
  = IllFormed InaccessibleMember /\
  construct_from hidden_copy InMemberOrFriend {| arg_cat := Lvalue; arg_const := true |}
  = WellFormed (Constructor [TReference LRef true "S"] DeclaredOnly).
Proof. split; reflexivity. Qed.

(** A user-declared destructor alone suppresses both implicit move
    operations, and so does a user-declared copy constructor. *)
Lemma dtor_suppresses_moves (c : class_specifier) :
  user_declares is_destructor c = true ->
  implicit_move_ctor c = [] /\ implicit_move_assign c = [].
Proof.
  intros H. unfold implicit_move_ctor, implicit_move_assign.
  rewrite H, !orb_true_r. auto.
Qed.

Lemma copy_ctor_suppresses_moves (c : class_specifier) :
  user_declares (is_copy_ctor (class_name c)) c = true ->
  implicit_move_ctor c = [] /\ implicit_move_assign c = [].
Proof.
  intros H. unfold implicit_move_ctor, implicit_move_assign. rewrite H.
  split.
  - destruct (user_declares (is_move_ctor _) c); reflexivity.
  - destruct (user_declares (is_move_assign _) c); reflexivity.
Qed.

(** *** The members of [Image] *)

(** Declarations that follow a label all get its access. *)
Lemma label_Member (a : access) (ds : list member_decl) :
  label a (map Member ds) = map (fun d => (a, d)) ds.
Proof.
  induction ds as [| d ds IH]; simpl.
  - reflexivity.
  - by rewrite IH.
Qed.

Lemma filter_public_private (ds : list member_decl) :
  filter (fun m => bool_decide (fst m = Public))
         (map (fun d => (Private, d)) ds) = [].
Proof.
  induction ds as [| d ds IH]; [reflexivity |].
  simpl. rewrite filter_cons_False; [exact IH |].
  simpl. intros [].
Qed.

(** Whatever the macro declares, it declares it private, and the class
    has a user-declared destructor. *)
Lemma Image_declared_members (macro : string -> list member_decl) :
  members (Image_declared macro)
  = (Public, Constructor [] DeclaredOnly)
    :: (Public, Destructor DeclaredOnly)
    :: map (fun d => (Private, d)) (macro "Image").
Proof. unfold members; simpl. by rewrite label_Member. Qed.

Lemma Image_declared_dtor (macro : string -> list member_decl) :
  user_declares is_destructor (Image_declared macro) = true.
Proof. unfold user_declares. rewrite Image_declared_members. reflexivity. Qed.

Lemma Image_members :
  all_members Image_class =
  [ (Public, Constructor [] DeclaredOnly);
    (Public, Destructor DeclaredOnly);
    (Private, Constructor [TReference LRef true "Image"] Deleted);
    (Private, AssignOperator (TReference LRef true "Image") Deleted) ].
Proof. reflexivity. Qed.

Lemma Image_nothing_implicit : implicit_members Image_class = [].
Proof. reflexivity. Qed.

Lemma Image_unique (i j : Image) : i = j.
Proof. destruct i, j. reflexivity. Qed.

(** C1: a copy construction and a copy assignment from an [Image], const
    or not, named or cast to an rvalue, written anywhere (in a member, a
    derived class or outside), is ill-formed: the function selected is
    deleted.  No copy constructor or copy assignment operator of the
    class, declared or implicit, is other than deleted. *)
Theorem Image_not_copyable :
  (forall (ctx : context) (a : argument),
     construct_from Image_class ctx a = IllFormed UseOfDeletedFunction) /\
  (forall (ctx : context) (a : argument),
     assign_from Image_class ctx a = IllFormed UseOfDeletedFunction) /\
  filter (fun m => (is_copy_ctor "Image" (snd m) || is_copy_assign "Image" (snd m))
                   && negb (is_deleted (snd m)))
         (all_members Image_class) = [].
Proof.
  split; [| split].
  - intros ctx [[] []]; destruct ctx; reflexivity.
  - intros ctx [[] []]; destruct ctx; reflexivity.
  - reflexivity.
Qed.

(** C7: [Image] has no move constructor and no move assignment operator:
    none is declared, and the user-declared destructor, copy constructor
    and copy assignment operator keep the implicit ones from being
    declared; the destructor does so whatever the macro stands for.
    Constructing or assigning from an [Image] cast to an rvalue selects
    the deleted copy operation and is ill-formed in every context. *)
Theorem Image_not_movable :
  (forall macro : string -> list member_decl,
     implicit_move_ctor (Image_declared macro) = [] /\
     implicit_move_assign (Image_declared macro) = []) /\
  user_declares is_destructor Image_class = true /\
  user_declares (is_copy_ctor "Image") Image_class = true /\
  user_declares (is_copy_assign "Image") Image_class = true /\
  implicit_move_ctor Image_class = [] /\
  implicit_move_assign Image_class = [] /\
  filter (fun m => is_move_ctor "Image" (snd m) || is_move_assign "Image" (snd m))
         (all_members Image_class) = [] /\
  (forall (ctx : context) (is_const : bool),
     construct_from Image_class ctx {| arg_cat := Xvalue; arg_const := is_const |}
     = IllFormed UseOfDeletedFunction) /\
  (forall (ctx : context) (is_const : bool),
     assign_from Image_class ctx {| arg_cat := Xvalue; arg_const := is_const |}
     = IllFormed UseOfDeletedFunction).
Proof.
  assert (Hany : forall macro : string -> list member_decl,
             implicit_move_ctor (Image_declared macro) = [] /\
             implicit_move_assign (Image_declared macro) = []).
  { intros macro. apply dtor_suppresses_moves, Image_declared_dtor. }
  destruct (Hany fml.FML_DISALLOW_COPY_AND_ASSIGN) as [Hmc Hma].
  split; [exact Hany |].
  repeat split; try assumption; try reflexivity.
  - intros [] []; reflexivity.
  - intros [] []; reflexivity.
Qed.

(** C5: the public members of [Image], implicit ones included, are the
    constructor without parameters and the destructor, and nothing else
    (of the members written in the class this holds whatever the macro
    stands for, its declarations being private); none of the members is a
    data member; the header introduces the one type name
    [impeller::Image]. *)
Theorem Image_public_interface :
  (forall macro : string -> list member_decl,
     filter (fun m => bool_decide (fst m = Public)) (members (Image_declared macro))
     = [ (Public, Constructor [] DeclaredOnly); (Public, Destructor DeclaredOnly) ]) /\
  filter (fun m => bool_decide (fst m = Public)) (all_members Image_class)
  = [ (Public, Constructor [] DeclaredOnly); (Public, Destructor DeclaredOnly) ] /\
  filter (fun m => is_data_member (snd m)) (all_members Image_class) = [] /\
  declared_types image_h = ["impeller::Image"].
Proof.
  split; [| repeat split].
  intros macro. rewrite Image_declared_members.
  rewrite !filter_cons_True by done.
  by rewrite filter_public_private.
Qed.

(** C4: [Image] has no data member and no base class, so its values are
    all equal, and a predicate on [Image] values that holds of one holds
    of every other: no operation can take an [Image] from a state where
    the predicate holds to one where it does not. *)
Theorem Image_has_no_state :
  filter (fun m => is_data_member (snd m)) (all_members Image_class) = [] /\
  bases Image_class = [] /\
  (forall i j : Image, i = j) /\
  (forall (P : Image -> Prop) (i j : Image), P i <-> P j).
Proof.
  split; [reflexivity |]. split; [reflexivity |].
  split; [exact Image_unique |].
  intros P i j. rewrite (Image_unique i j). tauto.
Qed.

(** *** Construction and destruction *)

Lemma construct_eq (this : N) (σ : state) :
  construct this σ
  = Returned tt (set_heap <[this := ImageObject mkImage]> σ).
Proof. reflexivity. Qed.

Lemma destroy_eq (this : N) (σ : state) :
  destroy this σ
  = if alive this σ then Returned tt (set_heap (delete this) σ) else Undefined.
Proof.
  run_M. destruct (heap σ !! this) as [[i | z] |]; reflexivity.
Qed.

Lemma alive_construct (this : N) (σ : state) :
  alive this (set_heap <[this := ImageObject mkImage]> σ) = true.
Proof. unfold alive, set_heap; simpl. by rewrite lookup_insert_eq. Qed.

Lemma state_eq (σ τ : state) :
  heap σ = heap τ -> output σ = output τ -> σ = τ.
Proof. destruct σ, τ; simpl; intros -> ->; reflexivity. Qed.

(** C2: constructing an [Image] returns normally from every state and at
    every address; destroying returns normally exactly when an [Image]
    lives at the address; neither ever leaves by an exception; and the
    members a user can call are the constructor and the destructor only. *)
Theorem Image_lifecycle_cannot_fail (this : N) (σ : state) :
  returns (construct this σ) = true /\
  returns (destroy this σ) = alive this σ /\
  (forall op : operation, throws (run op this σ) = false) /\
  filter callable (all_members Image_class)
  = [ (Public, Constructor [] DeclaredOnly); (Public, Destructor DeclaredOnly) ].
Proof.
  split; [reflexivity |]. split; [| split; [| reflexivity]].
  - rewrite destroy_eq. destruct (alive this σ); reflexivity.
  - intros []; simpl.
    + reflexivity.
    + rewrite destroy_eq. destruct (alive this σ); reflexivity.
Qed.

(** C3: the constructor and the destructor return with the state they
    were called in; construction amounts to the start of the object's
    lifetime and destruction to its end, and neither writes anything to
    the outside world. *)
Theorem Image_ctor_dtor_no_op (this : N) (σ : state) :
  Image_ctor this σ = Returned tt σ /\
  Image_dtor this σ = Returned tt σ /\
  construct this σ = begin_lifetime this (ImageObject mkImage) σ /\
  destroy this σ = (the_Image this ;; end_lifetime this) σ /\
  output <$> final (construct this σ) = Some (output σ) /\
  output <$> final (destroy this σ)
  = if alive this σ then Some (output σ) else None.
Proof.
  split; [reflexivity |]. split; [reflexivity |]. split; [reflexivity |].
  split; [reflexivity |]. split; [reflexivity |].
  rewrite destroy_eq. destruct (alive this σ); reflexivity.
Qed.

(** C8: constructing an [Image] at [this] and destroying it returns, and
    in the state reached every other address [l] holds what it held
    before and the output is what it was: the two states differ at most
    at [this]. *)
Theorem Image_construct_destroy_frame (this l : N) (σ : state) :
  l ≠ this ->
  exists σ' : state,
    (construct this ;; destroy this) σ = Returned tt σ' /\
    heap σ' !! l = heap σ !! l /\
    output σ' = output σ /\
    delete this (heap σ') = delete this (heap σ).
Proof.
  intros Hl. exists (set_heap (delete this) σ).
  split; [| split; [| split]].
  - unfold bind. rewrite construct_eq, destroy_eq, alive_construct.
    f_equal. apply state_eq; simpl; [| reflexivity].
    by rewrite delete_insert_eq.
  - simpl. by rewrite lookup_delete_ne.
  - reflexivity.
  - simpl. apply map_eq. intros k.
    destruct (decide (k = this)) as [-> | Hk].
    + by rewrite !lookup_delete_eq.
    + by rewrite !lookup_delete_ne.
Qed.

Lemma Image_construct_destroy_frame_witness :
  4%N ≠ 3%N /\
  exists σ' : state,
    (construct 3 ;; destroy 3) busy = Returned tt σ' /\
    heap σ' !! 4%N = heap busy !! 4%N /\
    output σ' = output busy /\
    delete 3%N (heap σ') = delete 3%N (heap busy).
Proof.
  split; [done |]. apply (Image_construct_destroy_frame 3 4 busy). done.
Defined.

(** Where the storage was free, the state is restored as a whole. *)
Lemma construct_destroy_fresh (this : N) (σ : state) :
  heap σ !! this = None ->
  (construct this ;; destroy this) σ = Returned tt σ.
Proof.
  intros Hfree. unfold bind.
  rewrite construct_eq, destroy_eq, alive_construct.
  f_equal. apply state_eq; simpl; [| reflexivity].
  rewrite delete_insert_eq. by apply delete_id.
Qed.

(** *** Two instances *)

(** C9: the one constructor that can be called takes no argument.
    Whatever the constructor's body does, whenever two constructions
    return — from any two states, at any two addresses — each has put an
    [Image] in place, the two values are equal, and no function of an
    [Image] value tells them apart. *)
Theorem Image_instances_equivalent
    (ctor : N -> M unit) (this1 this2 : N) (σ1 σ2 σ1' σ2' : state) :
  construct_with ctor this1 σ1 = Returned tt σ1' ->
  construct_with ctor this2 σ2 = Returned tt σ2' ->
  filter (fun m => is_constructor (snd m) && negb (is_deleted (snd m)))
         (all_members Image_class)
  = [ (Public, Constructor [] DeclaredOnly) ] /\
  exists i1 i2 : Image,
    heap σ1' !! this1 = Some (ImageObject i1) /\
    heap σ2' !! this2 = Some (ImageObject i2) /\
    i1 = i2 /\
    forall (A : Type) (observe : Image -> A), observe i1 = observe i2.
Proof.
  intros H1 H2. split; [reflexivity |].
  exists mkImage, mkImage.
  unfold construct_with, bind, begin_lifetime in H1, H2.
  destruct (ctor this1 σ1) as [[] τ1 | τ1 |]; try discriminate.
  destruct (ctor this2 σ2) as [[] τ2 | τ2 |]; try discriminate.
  injection H1 as <-. injection H2 as <-. simpl.
  rewrite !lookup_insert_eq. auto.
Qed.

Lemma Image_instances_equivalent_witness :
  construct_with Image_ctor 3 busy
  = Returned tt (set_heap <[3%N := ImageObject mkImage]> busy) /\
  construct_with Image_ctor 7 {| heap := ∅; output := [] |}
  = Returned tt (set_heap <[7%N := ImageObject mkImage]> {| heap := ∅; output := [] |}) /\
  exists i1 i2 : Image,
    heap (set_heap <[3%N := ImageObject mkImage]> busy) !! 3%N
    = Some (ImageObject i1) /\
    heap (set_heap <[7%N := ImageObject mkImage]> {| heap := ∅; output := [] |}) !! 7%N
    = Some (ImageObject i2) /\
    i1 = i2 /\
    forall (A : Type) (observe : Image -> A), observe i1 = observe i2.
Proof.
  split; [reflexivity |]. split; [reflexivity |].
  apply (Image_instances_equivalent Image_ctor 3 7 busy
           {| heap := ∅; output := [] |} _ _ eq_refl eq_refl).
Defined.


(* ===================================================================== *)
(** ** The class for any expansion of the macro *)
(* ===================================================================== *)

Lemma Image_expanded_declared (macro : string -> list member_decl) :
  Image_expanded (map Member (macro "Image")) = Image_declared macro.
Proof. reflexivity. Qed.

Lemma Image_expanded_members (expansion : list member_spec) :
  members (Image_expanded expansion)
  = (Public, Constructor [] DeclaredOnly)
    :: (Public, Destructor DeclaredOnly)
    :: label Private expansion.
Proof. reflexivity. Qed.

Lemma Image_expanded_dtor (expansion : list member_spec) :
  user_declares is_destructor (Image_expanded expansion) = true.
Proof. reflexivity. Qed.

(** The constructor and the destructor written in the class leave the
    compiler nothing to add but copy operations. *)
Lemma Image_expanded_implicit (expansion : list member_spec) :
  implicit_members (Image_expanded expansion)
  = (implicit_copy_ctor (Image_expanded expansion)
       ++ implicit_copy_assign (Image_expanded expansion))%list.
Proof.
  pose proof (Image_expanded_dtor expansion) as Hd.
  destruct (dtor_suppresses_moves _ Hd) as [Hmc Hma].
  unfold implicit_members. rewrite Hmc, Hma.
  unfold implicit_dtor. rewrite Hd.
  unfold implicit_default_ctor, user_declares.
  rewrite Image_expanded_members. simpl.
  by rewrite app_nil_r.
Qed.

Lemma implicit_copy_ctor_shape (c : class_specifier) (d : member_decl) :
  d ∈ implicit_copy_ctor c -> exists t b, d = Constructor [t] b.
Proof.
  unfold implicit_copy_ctor.
  destruct (user_declares (is_copy_ctor _) c); [by intros ?%elem_of_nil |].
  intros ->%list_elem_of_singleton. eauto.
Qed.

Lemma implicit_copy_assign_shape (c : class_specifier) (d : member_decl) :
  d ∈ implicit_copy_assign c -> exists t b, d = AssignOperator t b.
Proof.
  unfold implicit_copy_assign.
  destruct (user_declares (is_copy_assign _) c); [by intros ?%elem_of_nil |].
  intros ->%list_elem_of_singleton. eauto.
Qed.

(** Every member is one of: the constructor, the destructor, a
    declaration of the expansion, an implicit copy operation. *)
Lemma Image_expanded_all (expansion : list member_spec)
    (m : access * member_decl) :
  m ∈ all_members (Image_expanded expansion) ->
  m = (Public, Constructor [] DeclaredOnly) \/
  m = (Public, Destructor DeclaredOnly) \/
  m ∈ label Private expansion \/
  snd m ∈ implicit_copy_ctor (Image_expanded expansion) \/
  snd m ∈ implicit_copy_assign (Image_expanded expansion).
Proof.
  unfold all_members.
  rewrite Image_expanded_members, Image_expanded_implicit.
  rewrite elem_of_app, !elem_of_cons.
  intros [[-> | [-> | Hm]] | Hi]; auto.
  apply list_elem_of_In, in_map_iff in Hi as (d & <- & Hd).
  apply list_elem_of_In, elem_of_app in Hd as [Hd | Hd]; simpl; auto.
Qed.

Lemma keeps_private_elem (P : member_decl -> bool)
    (expansion : list member_spec) (m : access * member_decl) :
  keeps_private P expansion = true ->
  m ∈ label Private expansion -> P (snd m) = true -> fst m = Private.
Proof.
  unfold keeps_private. rewrite forallb_forall.
  intros H Hm%list_elem_of_In HP. specialize (H m Hm).
  rewrite HP in H. simpl in H. by apply bool_decide_eq_true in H.
Qed.

(** *** Resolution among private members *)

Lemma best_subset (cs : list candidate) (x : candidate) :
  x ∈ best cs -> x ∈ cs.
Proof. unfold best. by intros [_ ?]%list_elem_of_filter. Qed.

Lemma resolve_private (ctx : context) (cs : list candidate) :
  (forall x, x ∈ cs -> fst (snd x) = Private) ->
  ctx ≠ InMemberOrFriend ->
  is_well_formed (resolve ctx cs) = false.
Proof.
  intros Hpriv Hctx. unfold resolve.
  destruct (best cs) as [| [n [acc d]] [| y rest]] eqn:Hbest; try reflexivity.
  assert (Hin : (n, (acc, d)) ∈ cs).
  { apply best_subset. rewrite Hbest. apply list_elem_of_singleton. reflexivity. }
  apply Hpriv in Hin. simpl in Hin. subst acc.
  destruct (is_deleted d); [reflexivity |].
  destruct ctx; simpl; congruence.
Qed.

Lemma ctor_candidate_inv (C : string) (a : argument)
    (m : access * member_decl) (x : candidate) :
  x ∈ ctor_candidate C a m ->
  snd x = m /\ exists t b, snd m = Constructor [t] b.
Proof.
  unfold ctor_candidate.
  destruct (snd m) as [[| t [| t' ps]] b | | | |] eqn:Hm;
    try (by intros ?%elem_of_nil).
  destruct (binds C t a); [| by intros ?%elem_of_nil].
  intros ->%list_elem_of_singleton. simpl. eauto.
Qed.

Lemma assign_candidate_inv (c : class_specifier) (ctx : context) (a : argument)
    (m : access * member_decl) (x : candidate) :
  x ∈ assign_candidate c ctx a m ->
  snd x = m /\ exists t b, snd m = AssignOperator t b.
Proof.
  unfold assign_candidate.
  destruct (snd m) as [| | t b | |] eqn:Hm; try (by intros ?%elem_of_nil).
  destruct t as [n | k q n].
  - destruct (_ && _); [| by intros ?%elem_of_nil].
    intros ->%list_elem_of_singleton. simpl. eauto.
  - destruct (binds _ _ a); [| by intros ?%elem_of_nil].
    intros ->%list_elem_of_singleton. simpl. eauto.
Qed.

(** X1: let the macro expand to any sequence of access labels and
    declarations of constructors, destructors, assignment operators,
    member functions and data members (no template, no default
    argument).  If the class then declares a copy constructor and every
    one-parameter constructor of the expansion is private, no code
    outside the members and friends of the class can construct an
    [Image] from an existing one, named or cast to an rvalue, const or
    not: the construction is ill-formed, whether the copy constructor is
    deleted or only declared. *)
Theorem Image_copy_construction_sealed
    (expansion : list member_spec) (ctx : context) (a : argument) :
  keeps_private is_unary_ctor expansion = true ->
  user_declares (is_copy_ctor "Image") (Image_expanded expansion) = true ->
  ctx ≠ InMemberOrFriend ->
  is_well_formed (construct_from (Image_expanded expansion) ctx a) = false.
Proof.
  intros Hpriv Hcopy Hctx. unfold construct_from.
  apply resolve_private; [| exact Hctx].
  intros x (m & Hx & Hm)%list_elem_of_bind.
  apply ctor_candidate_inv in Hx as (-> & t & b & Hshape).
  apply Image_expanded_all in Hm as [-> | [-> | [Hm | [Hi | Hi]]]];
    try discriminate.
  - apply (keeps_private_elem is_unary_ctor expansion m Hpriv Hm).
    by rewrite Hshape.
  - unfold implicit_copy_ctor in Hi. simpl class_name in Hi.
    rewrite Hcopy in Hi. by apply elem_of_nil in Hi.
  - apply implicit_copy_assign_shape in Hi as (t' & b' & Hi). congruence.
Qed.

Lemma Image_copy_construction_sealed_witness :
  keeps_private is_unary_ctor declared_not_defined = true /\
  user_declares (is_copy_ctor "Image") (Image_expanded declared_not_defined) = true /\
  Outside ≠ InMemberOrFriend /\
  is_well_formed
    (construct_from (Image_expanded declared_not_defined) Outside
       {| arg_cat := Lvalue; arg_const := false |}) = false.
Proof.
  split; [reflexivity |]. split; [reflexivity |]. split; [discriminate |].
  apply (Image_copy_construction_sealed declared_not_defined Outside
           {| arg_cat := Lvalue; arg_const := false |});
    [reflexivity | reflexivity | discriminate].
Defined.

(** X2: let the macro expand to any sequence of access labels and
    declarations of constructors, destructors, assignment operators,
    member functions and data members (no template, no default
    argument).  If the class then declares a copy assignment operator
    and every assignment operator of the expansion is private, no code
    outside the members and friends of the class can assign an existing
    [Image] to another: the assignment is ill-formed. *)
Theorem Image_assignment_sealed
    (expansion : list member_spec) (ctx : context) (a : argument) :
  keeps_private is_assign_operator expansion = true ->
  user_declares (is_copy_assign "Image") (Image_expanded expansion) = true ->
  ctx ≠ InMemberOrFriend ->
  is_well_formed (assign_from (Image_expanded expansion) ctx a) = false.
Proof.
  intros Hpriv Hcopy Hctx. unfold assign_from.
  apply resolve_private; [| exact Hctx].
  intros x (m & Hx & Hm)%list_elem_of_bind.
  apply assign_candidate_inv in Hx as (-> & t & b & Hshape).
  apply Image_expanded_all in Hm as [-> | [-> | [Hm | [Hi | Hi]]]];
    try discriminate.
  - apply (keeps_private_elem is_assign_operator expansion m Hpriv Hm).
    by rewrite Hshape.
  - apply implicit_copy_ctor_shape in Hi as (t' & b' & Hi). congruence.
  - unfold implicit_copy_assign in Hi. simpl class_name in Hi.
    rewrite Hcopy in Hi. by apply elem_of_nil in Hi.
Qed.

Lemma Image_assignment_sealed_witness :
  keeps_private is_assign_operator declared_not_defined = true /\
  user_declares (is_copy_assign "Image") (Image_expanded declared_not_defined) = true /\
  InDerivedClass ≠ InMemberOrFriend /\
  is_well_formed
    (assign_from (Image_expanded declared_not_defined) InDerivedClass
       {| arg_cat := Xvalue; arg_const := false |}) = false.
Proof.
  split; [reflexivity |]. split; [reflexivity |]. split; [discriminate |].
  apply (Image_assignment_sealed declared_not_defined InDerivedClass
           {| arg_cat := Xvalue; arg_const := false |});
    [reflexivity | reflexivity | discriminate].
Defined.

(** Both hypotheses are needed: an expansion that makes the copy
    operations public lets outside code copy, and with the copy
    constructor alone disabled the compiler still provides the
    assignment. *)
Example made_public_copies :
  keeps_private is_unary_ctor made_public = false /\
  construct_from (Image_expanded made_public) Outside
    {| arg_cat := Lvalue; arg_const := false |}
  = WellFormed (Constructor [TReference LRef true "Image"] DeclaredOnly) /\
  assign_from (Image_expanded made_public) Outside
    {| arg_cat := Lvalue; arg_const := false |}
  = WellFormed (AssignOperator (TReference LRef true "Image") DeclaredOnly).
Proof. repeat split. Qed.

Example copy_ctor_only_still_assigns :
  user_declares (is_copy_assign "Image") (Image_expanded copy_ctor_only) = false /\
  assign_from (Image_expanded copy_ctor_only) Outside
    {| arg_cat := Lvalue; arg_const := false |}
  = WellFormed (AssignOperator (TReference LRef true "Image") Defaulted).
Proof. split; reflexivity. Qed.

(* ===================================================================== *)
(** ** Including image.h *)
(* ===================================================================== *)

Lemma met_elem (id : N) (seen : gset N) : id ∈ seen -> met id seen = 1.
Proof. intros H. unfold met. by rewrite decide_True. Qed.

Lemma met_not_elem (id : N) (seen : gset N) : id ∉ seen -> met id seen = 0.
Proof. intros H. unfold met. by rewrite decide_False. Qed.

Lemma met_le (id : N) (seen : gset N) : met id seen <= 1.
Proof. unfold met. case_decide; lia. Qed.

Lemma met_other (id id' : N) (seen : gset N) :
  id' ≠ id -> met id ({[id']} ∪ seen) = met id seen.
Proof.
  intros Hne. destruct (decide (id ∈ seen)) as [Hin | Hout].
  - rewrite (met_elem _ seen Hin), met_elem; [reflexivity |].
    apply elem_of_union. by right.
  - rewrite (met_not_elem _ seen Hout), met_not_elem; [reflexivity |].
    intros [Heq%elem_of_singleton | Hin]%elem_of_union; [congruence | done].
Qed.

Lemma definitions_of_app (T : string) (out1 out2 : list header) :
  definitions_of T (out1 ++ out2)%list
  = definitions_of T out1 + definitions_of T out2.
Proof.
  unfold definitions_of. by rewrite bind_app, filter_app, List.length_app.
Qed.

Lemma image_h_defines_Image : definitions_of "impeller::Image" [text image_h_file] = 1.
Proof. reflexivity. Qed.

Section Once.
Variable fs : file_system.
Variable T : string.
Variable id : N.
Variable guarded : source_file.
Hypothesis Hstored : stored fs !! id = Some guarded.
Hypothesis Honce : pragma_once guarded = true.
Hypothesis Hdefines : definitions_of T [text guarded] = 1.
Hypothesis Hothers : only_in T id fs.

Lemma accounted_refl (seen : gset N) : accounted T id seen seen [].
Proof. split; [done | reflexivity]. Qed.

Lemma accounted_trans (s1 s2 s3 : gset N) (out1 out2 : list header) :
  accounted T id s1 s2 out1 -> accounted T id s2 s3 out2 ->
  accounted T id s1 s3 (out1 ++ out2)%list.
Proof.
  intros [Hs1 Hn1] [Hs2 Hn2]. split; [set_solver |].
  rewrite definitions_of_app. lia.
Qed.

Lemma include_all_accounted
    (inc : gset N -> string -> option (gset N * list header)) :
  (forall seen p seen' out,
     inc seen p = Some (seen', out) -> accounted T id seen seen' out) ->
  forall paths seen seen' out,
    include_all inc seen paths = Some (seen', out) ->
    accounted T id seen seen' out.
Proof.
  intros Hinc. induction paths as [| p rest IH]; intros seen seen' out; simpl.
  - intros [= <- <-]. apply accounted_refl.
  - destruct (inc seen p) as [[s1 o1] |] eqn:H1; [| discriminate].
    destruct (include_all inc s1 rest) as [[s2 o2] |] eqn:H2; [| discriminate].
    intros [= <- <-].
    eapply accounted_trans; [by eapply Hinc | by eapply IH].
Qed.

Lemma include_file_accounted (depth : nat) :
  forall from seen path seen' out,
    include_file depth fs from seen path = Some (seen', out) ->
    accounted T id seen seen' out.
Proof.
  induction depth as [| d IH]; intros from seen path seen' out; simpl;
    [discriminate |].
  destruct (named fs from path) as [id' |] eqn:Hname; [| discriminate].
  destruct (stored fs !! id') as [f |] eqn:Hf; [| discriminate].
  destruct (pragma_once f && bool_decide (id' ∈ seen)) eqn:Hskip.
  { intros [= <- <-]. apply accounted_refl. }
  destruct (include_all _ _ _) as [[s o] |] eqn:Hall; [| discriminate].
  intros [= <- <-].
  apply (include_all_accounted _ (IH (Some id'))) in Hall as [Hsub Hn].
  unfold accounted. rewrite definitions_of_app.
  destruct (decide (id' = id)) as [-> | Hne].
  - (* the guarded file itself, met for the first time *)
    rewrite Hstored in Hf. injection Hf as <-.
    rewrite Honce in *. simpl in Hskip.
    apply bool_decide_eq_false in Hskip.
    split; [set_solver |].
    rewrite Hdefines, (met_not_elem _ _ Hskip).
    rewrite (met_elem id ({[id]} ∪ seen)) in Hn by set_solver.
    lia.
  - (* another file: no definition of [T], and [id] is met as before *)
    destruct (Hothers id' f Hf) as [? | Hnone]; [done |].
    rewrite Hnone.
    destruct (pragma_once f).
    + rewrite (met_other _ _ _ Hne) in Hn. split; [set_solver | lia].
    + split; [done | lia].
Qed.

(** A successful inclusion of a path that denotes [id] has met it. *)
Lemma include_file_met (depth : nat) (from : option N) (path : string)
    (seen seen' : gset N) (out : list header) :
  named fs from path = Some id ->
  include_file depth fs from seen path = Some (seen', out) -> id ∈ seen'.
Proof.
  intros Hname. destruct depth as [| d]; simpl; [discriminate |].
  rewrite Hname, Hstored, Honce. simpl.
  case_bool_decide as Hin.
  - by intros [= <- <-].
  - destruct (include_all _ _ _) as [[s o] |] eqn:Hall; [| discriminate].
    intros [= <- <-].
    apply (include_all_accounted _ (include_file_accounted d (Some id)))
      in Hall as [Hsub _].
    set_solver.
Qed.

Lemma include_all_met (depth : nat) :
  forall paths seen seen' out,
    names fs id paths = true ->
    include_all (include_file depth fs None) seen paths = Some (seen', out) ->
    id ∈ seen'.
Proof.
  induction paths as [| p rest IH]; intros seen seen' out; simpl.
  - discriminate.
  - intros Hin.
    destruct (include_file depth fs None seen p) as [[s1 o1] |] eqn:H1;
      [| discriminate].
    destruct (include_all _ s1 rest) as [[s2 o2] |] eqn:H2; [| discriminate].
    intros [= <- <-].
    apply orb_true_iff in Hin as [Hp%bool_decide_eq_true | Hin].
    + apply (include_file_met _ _ _ _ _ _ Hp) in H1.
      apply (include_all_accounted _ (include_file_accounted depth None))
        in H2 as [Hsub _].
      set_solver.
    + by eapply IH.
Qed.

Lemma preprocess_at_most_once (depth : nat) (directives : list string)
    (tu : list header) :
  preprocess depth fs directives = Some tu ->
  definitions_of T tu <= 1.
Proof.
  unfold preprocess.
  destruct (include_all _ _ _) as [[s o] |] eqn:Hall; [| discriminate].
  intros [= <-].
  apply (include_all_accounted _ (include_file_accounted depth None))
    in Hall as [_ Hn].
  pose proof (met_le id s). lia.
Qed.

Lemma preprocess_exactly_once (depth : nat) (directives : list string)
    (tu : list header) :
  names fs id directives = true ->
  preprocess depth fs directives = Some tu ->
  definitions_of T tu = 1.
Proof.
  unfold preprocess. intros Hin.
  destruct (include_all _ _ _) as [[s o] |] eqn:Hall; [| discriminate].
  intros [= <-].
  pose proof (include_all_met depth _ _ _ _ Hin Hall) as Hmet.
  apply (include_all_accounted _ (include_file_accounted depth None))
    in Hall as [_ Hn].
  rewrite met_not_elem, (met_elem _ _ Hmet) in Hn by set_solver.
  lia.
Qed.

End Once.

Lemma tree_only_in : only_in "impeller::Image" 1 tree.
Proof.
  unfold only_in, tree; simpl.
  repeat (apply map_Forall_insert_2; [first [by left | by right] |]).
  apply map_Forall_empty.
Qed.

(** One file under two spellings is included once; a header without
    [#pragma once] goes in as often as it is included. *)
Example two_spellings_once :
  preprocess 5 tree ["impeller/aiks/image.h"; "./impeller/aiks/image.h"]
  = Some [no_text; image_h].
Proof. vm_compute. reflexivity. Qed.

Example unguarded_twice :
  preprocess 5 tree ["unguarded.h"; "unguarded.h"]
  = Some [no_text; image_h; text unguarded; text unguarded].
Proof. vm_compute. reflexivity. Qed.

(** Inclusion fails on a path that denotes no file and beyond the
    nesting limit. *)
Example preprocess_failures :
  preprocess 5 tree ["nothing.h"] = None /\
  preprocess 1 tree ["impeller/aiks/image.h"] = None.
Proof. split; vm_compute; reflexivity. Qed.

(** [#pragma once] does not help against a second file with the same
    text: the type is then defined twice. *)
Example copy_defines_twice :
  definitions_of "impeller::Image" [text image_h_file; text image_h_file] = 2 /\
  preprocess 5 tree_with_copy ["impeller/aiks/image.h"; "copy/image.h"]
  = Some [no_text; image_h; image_h].
Proof. split; vm_compute; reflexivity. Qed.

(** X4: image.h starts with [#pragma once].  In a file system of files
    made of includes and class definitions, where image.h is the file
    [id] and no other file defines a type named [impeller::Image],
    whenever the preprocessing of a list of includes succeeds, the
    translation unit holds at most one definition of [impeller::Image],
    however often, under whatever spellings and through whatever other
    headers image.h is included. *)
Theorem Image_defined_at_most_once
    (fs : file_system) (id : N) (depth : nat)
    (directives : list string) (tu : list header) :
  stored fs !! id = Some image_h_file ->
  only_in "impeller::Image" id fs ->
  preprocess depth fs directives = Some tu ->
  definitions_of "impeller::Image" tu <= 1.
Proof.
  intros Hfs Honly Hrun.
  by apply (preprocess_at_most_once fs "impeller::Image" id image_h_file
              Hfs eq_refl image_h_defines_Image Honly depth directives tu).
Qed.

Lemma Image_defined_at_most_once_witness :
  stored tree !! 1%N = Some image_h_file /\
  only_in "impeller::Image" 1 tree /\
  preprocess 5 tree ["unguarded.h"; "unguarded.h"]
  = Some [no_text; image_h; text unguarded; text unguarded] /\
  definitions_of "impeller::Image"
    [no_text; image_h; text unguarded; text unguarded] <= 1.
Proof.
  assert (Hfs : stored tree !! 1%N = Some image_h_file)
    by (vm_compute; reflexivity).
  assert (Hrun : preprocess 5 tree ["unguarded.h"; "unguarded.h"]
                 = Some [no_text; image_h; text unguarded; text unguarded])
    by (vm_compute; reflexivity).
  split; [exact Hfs |]. split; [exact tree_only_in |]. split; [exact Hrun |].
  exact (Image_defined_at_most_once tree 1 5 _ _ Hfs tree_only_in Hrun).
Defined.

(** X5: under the same conditions, when one of the includes denotes
    image.h, the translation unit holds exactly one definition of
    [impeller::Image]. *)
Theorem Image_defined_exactly_once
    (fs : file_system) (id : N) (depth : nat)
    (directives : list string) (tu : list header) :
  stored fs !! id = Some image_h_file ->
  only_in "impeller::Image" id fs ->
  names fs id directives = true ->
  preprocess depth fs directives = Some tu ->
  definitions_of "impeller::Image" tu = 1.
Proof.
  intros Hfs Honly Hnames Hrun.
  by apply (preprocess_exactly_once fs "impeller::Image" id image_h_file
              Hfs eq_refl image_h_defines_Image Honly depth directives tu).
Qed.

Lemma Image_defined_exactly_once_witness :
  stored tree !! 1%N = Some image_h_file /\
  only_in "impeller::Image" 1 tree /\
  names tree 1 ["impeller/aiks/image.h"; "unguarded.h"; "./impeller/aiks/image.h"]
  = true /\
  preprocess 5 tree ["impeller/aiks/image.h"; "unguarded.h"; "./impeller/aiks/image.h"]
  = Some [no_text; image_h; text unguarded] /\
  definitions_of "impeller::Image" [no_text; image_h; text unguarded] = 1.
Proof.
  assert (Hfs : stored tree !! 1%N = Some image_h_file)
    by (vm_compute; reflexivity).
  assert (Hnames : names tree 1 ["impeller/aiks/image.h"; "unguarded.h";
                                 "./impeller/aiks/image.h"] = true)
    by (vm_compute; reflexivity).
  assert (Hrun : preprocess 5 tree ["impeller/aiks/image.h"; "unguarded.h";
                                    "./impeller/aiks/image.h"]
                 = Some [no_text; image_h; text unguarded])
    by (vm_compute; reflexivity).
  split; [exact Hfs |]. split; [exact tree_only_in |].
  split; [exact Hnames |]. split; [exact Hrun |].
  exact (Image_defined_exactly_once tree 1 5 _ _ Hfs tree_only_in Hnames Hrun).
Defined.
